(** * ParseRateLimiter: a shallow embedding of [src/index.js]

    The JavaScript constructor [ParseRateLimiter] closes over four
    variables ([finalizedPromise], [toSave], [timer], [savePromise]) and
    keeps its public fields on [self].  All of them are mutated from
    timer callbacks and promise callbacks, so the embedding threads one
    explicit [world] through every function of the source: the object
    fields, the closure variables, and the part of the host the code
    talks to (the timer table, the promises it created, the batches it
    handed to [Parse.Object.saveAll], the console).

    Calls made by the user and callbacks run by the host are the
    [event]s of a step function; a state is reachable when a sequence
    of events leads to it from a freshly constructed instance.

    What lies outside the source is modelled as follows.
    - [maxRate] is a natural number, so that [_.first(a, n)] and
      [_.rest(a, n)] are [take n a] and [drop n a].
    - Promises are those of the Parse SDK the file requires
      ([require('parse').Parse]): a promise settles once and throws
      when settled again; [then] and [fail] callbacks run synchronously
      when their promise settles; the promise derived by
      [p.fail(handler)] resolves when [p] resolves and, when [p] is
      rejected, is rejected with the value the handler returns.
    - The joined outcome of the sub-batches of one dispatch
      ([Parse.Promise.when(promises)]) is decided by the environment:
      it is the event [SaveSucceeds] or [SaveFails]. *)

From stdpp Require Import gmap strings list.
From Equations Require Import Equations.

Open Scope string_scope.
Open Scope list_scope.
Set Warnings "-register-all".

(** ** JavaScript values *)

Inductive value : Type :=
| VUndefined
| VNull
| VBool (b : bool)
| VNum (n : Z)
| VStr (s : string)
| VParseObject (id : nat)      (* an instance of [Parse.Object] *)
| VObject (id : nat)           (* a plain object without enumerable own
                                  properties, e.g. an [Error] or [{}] *)
| VArray (elems : list value).

(** [object instanceof Parse.Object] *)
Definition is_parse_object (v : value) : bool :=
  match v with VParseObject _ => true | _ => false end.

(** [Array.isArray(objects)] *)
Definition is_array (v : value) : bool :=
  match v with VArray _ => true | _ => false end.

(** The truthiness test of [if (v)]. *)
Definition truthy (v : value) : bool :=
  match v with
  | VUndefined | VNull => false
  | VBool b => b
  | VNum n => negb (n =? 0)%Z
  | VStr s => negb (String.eqb s "")
  | VParseObject _ | VObject _ | VArray _ => true
  end.

(** ** The instance, its closure and the host *)

(** The outcome of a promise.  The value a promise resolves with is
    never read by the source, so only rejections carry one. *)
Inductive pstate : Type :=
| Pending
| Resolved
| Rejected (e : value).

(** One call of [saveInBatches]: the sub-batches handed to
    [Parse.Object.saveAll], the promise [Parse.Promise.when(promises)]
    ([joined]), the promise [.fail(errHandler)] derives from it
    ([handled], the value stored in [savePromise]), and whether the
    continuation [function() { finalizedPromise.resolve(); }] was
    attached to the latter. *)
Record dispatch : Type := Dispatch {
  batches : list (list value);
  joined : pstate;
  handled : pstate;
  tacked : bool
}.

(** Fields of [self].  [killswitch] is the property line 91 reads; no
    line of the source writes it. *)
Record instance : Type := Instance {
  _maxRate : nat;
  _killSwitch : bool;
  _saveQueue : list value;
  _error : value;
  killswitch : value
}.

(** The [var]s of the constructor.  [None] stands for [undefined] and
    [null]; promises and dispatches are named by their index in the
    host tables, timers by their id. *)
Record closure : Type := Closure {
  finalizedPromise : option nat;
  toSave : option (list value);
  timer : option nat;
  savePromise : option nat
}.

Inductive log_entry : Type :=
| LogStr (s : string)
| LogVal (v : value)
| LogItemsLeft (n : nat).      (* n + ' items left in the queue.' *)

Record host : Type := Host {
  timers : gset nat;             (* armed, not yet fired or cleared *)
  next_timer : nat;
  promises : list pstate;        (* every [new Parse.Promise()] of [finalize] *)
  dispatches : list dispatch;
  console : list log_entry
}.

Record world : Type := World {
  self : instance;
  vars : closure;
  env : host
}.

(** [new ParseRateLimiter(maxRate)].  Timer ids start at 1: what
    [setTimeout] returns is truthy. *)
Definition init (maxRate : nat) : world :=
  {| self := {| _maxRate := maxRate; _killSwitch := false; _saveQueue := [];
                _error := VUndefined; killswitch := VUndefined |};
     vars := {| finalizedPromise := None; toSave := None;
                timer := None; savePromise := None |};
     env := {| timers := ∅; next_timer := 1; promises := [];
               dispatches := []; console := [] |} |}.

(** Field updates. *)
Definition set_killSwitch (b : bool) (w : world) : world :=
  let s := self w in
  {| self := {| _maxRate := _maxRate s; _killSwitch := b;
                _saveQueue := _saveQueue s; _error := _error s;
                killswitch := killswitch s |};
     vars := vars w; env := env w |}.

Definition set_saveQueue (q : list value) (w : world) : world :=
  let s := self w in
  {| self := {| _maxRate := _maxRate s; _killSwitch := _killSwitch s;
                _saveQueue := q; _error := _error s;
                killswitch := killswitch s |};
     vars := vars w; env := env w |}.

Definition set_error (e : value) (w : world) : world :=
  let s := self w in
  {| self := {| _maxRate := _maxRate s; _killSwitch := _killSwitch s;
                _saveQueue := _saveQueue s; _error := e;
                killswitch := killswitch s |};
     vars := vars w; env := env w |}.

Definition set_finalizedPromise (p : option nat) (w : world) : world :=
  let c := vars w in
  {| self := self w;
     vars := {| finalizedPromise := p; toSave := toSave c;
                timer := timer c; savePromise := savePromise c |};
     env := env w |}.

Definition set_toSave (l : option (list value)) (w : world) : world :=
  let c := vars w in
  {| self := self w;
     vars := {| finalizedPromise := finalizedPromise c; toSave := l;
                timer := timer c; savePromise := savePromise c |};
     env := env w |}.

Definition set_timer (t : option nat) (w : world) : world :=
  let c := vars w in
  {| self := self w;
     vars := {| finalizedPromise := finalizedPromise c; toSave := toSave c;
                timer := t; savePromise := savePromise c |};
     env := env w |}.

Definition set_savePromise (p : option nat) (w : world) : world :=
  let c := vars w in
  {| self := self w;
     vars := {| finalizedPromise := finalizedPromise c; toSave := toSave c;
                timer := timer c; savePromise := p |};
     env := env w |}.

Definition set_timers (t : gset nat) (n : nat) (w : world) : world :=
  let h := env w in
  {| self := self w; vars := vars w;
     env := {| timers := t; next_timer := n; promises := promises h;
               dispatches := dispatches h; console := console h |} |}.

Definition set_promises (p : list pstate) (w : world) : world :=
  let h := env w in
  {| self := self w; vars := vars w;
     env := {| timers := timers h; next_timer := next_timer h; promises := p;
               dispatches := dispatches h; console := console h |} |}.

Definition set_dispatches (d : list dispatch) (w : world) : world :=
  let h := env w in
  {| self := self w; vars := vars w;
     env := {| timers := timers h; next_timer := next_timer h;
               promises := promises h; dispatches := d;
               console := console h |} |}.

Definition set_console (c : list log_entry) (w : world) : world :=
  let h := env w in
  {| self := self w; vars := vars w;
     env := {| timers := timers h; next_timer := next_timer h;
               promises := promises h; dispatches := dispatches h;
               console := c |} |}.

(** ** A state-and-exception monad for the function bodies *)

Inductive exn : Type :=
| Error (msg : string)           (* [throw new Error(msg)] *)
| TypeError (msg : string)       (* raised by the engine *)
| Thrown (msg : string).         (* [throw "..."], as Parse.Promise does *)

Inductive completion (A : Type) : Type :=
| Normal (a : A)
| Throw (e : exn).
Arguments Normal {A} a.
Arguments Throw {A} e.

Definition M (A : Type) : Type := world -> completion A * world.

Definition ret {A} (a : A) : M A := fun w => (Normal a, w).

Definition bind {A B} (c : M A) (k : A -> M B) : M B :=
  fun w =>
    match c w with
    | (Normal a, w') => k a w'
    | (Throw e, w') => (Throw e, w')
    end.

Definition throw {A} (e : exn) : M A := fun w => (Throw e, w).
Definition get : M world := fun w => (Normal w, w).
Definition modify (f : world -> world) : M unit := fun w => (Normal tt, f w).

Notation "'do' x <- c ; k" := (bind c (fun x => k))
  (at level 10, x name, c at level 100, k at level 200).
Notation "c ;; k" := (bind c (fun _ => k))
  (at level 100, k at level 200, right associativity).

(** ** Host primitives *)

Definition console_log (e : log_entry) : M unit :=
  modify (fun w => set_console (console (env w) ++ [e]) w).

(** [setTimeout(_.bind(rateLimiter, this), delay)].  The only callback
    ever scheduled is [rateLimiter]; the delay is real time and is left
    to the environment, which decides when an armed timer fires. *)
Definition setTimeout (delay : nat) : M nat :=
  fun w =>
    let id := next_timer (env w) in
    (Normal id, set_timers (timers (env w) ∪ {[id]}) (S id) w).

(** [clearTimeout(timer)]: disarms the timer; [null], [undefined] and
    ids that are no longer armed are ignored. *)
Definition clearTimeout (t : option nat) : M unit :=
  match t with
  | Some id =>
      modify (fun w => set_timers (timers (env w) ∖ {[id]}) (next_timer (env w)) w)
  | None => ret tt
  end.

(** [new Parse.Promise()] *)
Definition new_promise : M nat :=
  fun w =>
    let j := length (promises (env w)) in
    (Normal j, set_promises (promises (env w) ++ [Pending]) w).

(** [promise.resolve()] and [promise.reject(error)] of Parse.Promise: a
    promise settles once; settling it again throws a string and leaves
    it as it is. *)
Definition promise_resolve (j : nat) : M unit :=
  fun w =>
    match promises (env w) !! j with
    | Some Pending => (Normal tt, set_promises (<[j := Resolved]> (promises (env w))) w)
    | Some Resolved =>
        (Throw (Thrown "A promise was resolved even though it had already been resolved."), w)
    | Some (Rejected _) =>
        (Throw (Thrown "A promise was resolved even though it had already been rejected."), w)
    | None => (Normal tt, w)
    end.

Definition promise_reject (j : nat) (error : value) : M unit :=
  fun w =>
    match promises (env w) !! j with
    | Some Pending =>
        (Normal tt, set_promises (<[j := Rejected error]> (promises (env w))) w)
    | Some Resolved =>
        (Throw (Thrown "A promise was rejected even though it had already been resolved."), w)
    | Some (Rejected _) =>
        (Throw (Thrown "A promise was rejected even though it had already been rejected."), w)
    | None => (Normal tt, w)
    end.

(** ** The functions of the constructor *)

(** [errHandler], lines 57-72. *)
Definition errHandler (err : value) : M unit :=
  do w <- get;
  if _killSwitch (self w) then ret tt
  else
    console_log (LogStr "Save error in ParseRateLimiter!!!  D:") ;;
    console_log (LogVal err) ;;
    (* Clear the queue and reject the returned promise *)
    clearTimeout (timer (vars w)) ;;
    modify (set_killSwitch true) ;;
    modify (set_saveQueue []) ;;
    match finalizedPromise (vars w) with
    | Some j => promise_reject j err
    | None => modify (set_error err)
    end.

Definition batchSize : nat := 10.

(** The [while (objects.length)] loop of [saveInBatches], lines 81-85:
    [_.first(objects, batchSize)] is [take], [_.rest(objects, batchSize)]
    is [drop], and [promises] collects, in order, one request per
    sub-batch. *)
Equations? saveInBatches_loop (objects : list value) (promises : list (list value))
  : list (list value) by wf (length objects) lt :=
  saveInBatches_loop [] promises := promises;
  saveInBatches_loop (o :: objects) promises :=
    saveInBatches_loop (drop batchSize (o :: objects))
                       (promises ++ [take batchSize (o :: objects)]).
Proof. rewrite length_drop. unfold batchSize. simpl. lia. Qed.

(** [saveInBatches(objects)], lines 76-88.  Returns the index of the new
    dispatch; [Parse.Promise.when] of no promise at all is already
    resolved. *)
Definition saveInBatches (objects : list value) : M nat :=
  fun w =>
    let promises := saveInBatches_loop objects [] in
    let k := length (dispatches (env w)) in
    let d := {| batches := promises;
                joined := match promises with [] => Resolved | _ => Pending end;
                handled := Pending; tacked := false |} in
    (Normal k, set_dispatches (dispatches (env w) ++ [d]) w).

(** Updates of one dispatch record. *)
Definition with_joined (p : pstate) (d : dispatch) : dispatch :=
  {| batches := batches d; joined := p; handled := handled d; tacked := tacked d |}.
Definition with_handled (p : pstate) (d : dispatch) : dispatch :=
  {| batches := batches d; joined := joined d; handled := p; tacked := tacked d |}.
Definition with_tacked (b : bool) (d : dispatch) : dispatch :=
  {| batches := batches d; joined := joined d; handled := handled d; tacked := b |}.

Definition update_dispatch (k : nat) (f : dispatch -> dispatch) : M unit :=
  modify (fun w => set_dispatches (alter f k (dispatches (env w))) w).

(** [.fail(errHandler)] on the promise of dispatch [k]: the derived
    promise follows a source that is already resolved. *)
Definition promise_fail (k : nat) : M unit :=
  update_dispatch k (fun d =>
    match joined d with
    | Resolved => with_handled Resolved d
    | _ => d
    end).

(** The continuation of lines 107-109.  It reads the variable
    [finalizedPromise] when it runs, not when it is attached. *)
Definition resolve_finalized : M unit :=
  do w <- get;
  match finalizedPromise (vars w) with
  | Some j => promise_resolve j
  | None => throw (TypeError "Cannot read property 'resolve' of undefined")
  end.

(** [savePromise.then(function() { finalizedPromise.resolve(); })]:
    the continuation runs at once on a promise that is already
    resolved, and waits otherwise. *)
Definition tack_resolution (k : nat) : M unit :=
  do w <- get;
  match handled <$> dispatches (env w) !! k with
  | Some Resolved => resolve_finalized
  | _ => update_dispatch k (with_tacked true)
  end.

(** [rateLimiter], lines 90-119. *)
Definition rateLimiter : M unit :=
  do w <- get;
  if truthy (killswitch (self w)) then ret tt
  else if negb (length (_saveQueue (self w)) =? 0)%nat then
    (* Lops off a batch of size determined by desired request rate *)
    let first := take (_maxRate (self w)) (_saveQueue (self w)) in
    modify (set_toSave (Some first)) ;;
    modify (set_saveQueue (drop (_maxRate (self w)) (_saveQueue (self w)))) ;;
    do k <- saveInBatches first;
    promise_fail k ;;
    modify (set_savePromise (Some k)) ;;
    do w1 <- get;
    console_log (LogItemsLeft (length (_saveQueue (self w1)))) ;;
    if (length (_saveQueue (self w1)) =? 0)%nat then
      modify (set_timer None) ;;
      match finalizedPromise (vars w1) with
      | Some _ => tack_resolution k
      | None => ret tt
      end
    else
      (* Save another batch after waiting *)
      do id <- setTimeout 1000;
      modify (set_timer (Some id))
  else
    match timer (vars w) with
    | Some _ => modify (set_timer None)
    | None => ret tt
    end.

(** [self._startTimer], lines 121-123. *)
Definition _startTimer : M unit :=
  do w <- get;
  match timer (vars w) with
  | Some _ => ret tt
  | None => do id <- setTimeout 0; modify (set_timer (Some id))
  end.

(** [self.save], lines 125-131. *)
Definition save (object : value) : M unit :=
  if negb (is_parse_object object) then
    throw (Error "save must accept a Parse Object")
  else
    modify (fun w => set_saveQueue (_saveQueue (self w) ++ [object]) w).

(** [_.find(objects, predicate)]: the first element the predicate
    accepts, [undefined] when there is none.  Underscore walks arrays
    and strings by index and any other object by its enumerable own
    properties.  The first such property of a [Parse.Object] is its
    [_serverData], a plain object, and the walk of [saveAll] stops
    there; a [VObject] has none; [null], [undefined], numbers and
    booleans have nothing to walk. *)
Fixpoint chars (s : string) : list value :=
  match s with
  | EmptyString => []
  | String c s' => VStr (String c EmptyString) :: chars s'
  end.

Definition elements_of (v : value) : list value :=
  match v with
  | VArray l => l
  | VStr s => chars s
  | VParseObject id => [VObject id]
  | _ => []
  end.

Definition _find (objects : value) (predicate : value -> bool) : value :=
  match List.find predicate (elements_of objects) with
  | Some v => v
  | None => VUndefined
  end.

(** [self.saveAll], lines 133-155. *)
Definition saveAll (objects : value) : M unit :=
  (* Make sure it's an array *)
  let inputError :=
    if negb (is_array objects)
    then Some "saveAll must accept an array of objects" else None in
  (* Make sure the array contains only parse objects *)
  let notParseObject := _find objects (fun object => negb (is_parse_object object)) in
  do inputError <-
    (if truthy notParseObject then
       console_log (LogStr "The following item failed input validation:") ;;
       console_log (LogVal notParseObject) ;;
       ret (Some "Cannot process item that is not a Parse object")
     else ret inputError);
  match inputError with
  | Some msg => throw (Error msg)
  | None =>
      (* Add the items to the queue *)
      modify (fun w => set_saveQueue (_saveQueue (self w) ++ elements_of objects) w)
  end.

(** What [finalize] returns: [Parse.Promise.error(self._error)], the
    new [finalizedPromise], or [savePromise.then(...)], whose outcome is
    that of the [savePromise] it is chained to. *)
Inductive finalize_ret : Type :=
| RetError (e : value)
| RetFinalized (j : nat)
| RetChained (k : nat).

(** [self.finalize], lines 157-180. *)
Definition finalize : M finalize_ret :=
  console_log (LogStr "Finalizing, kicking off rate limited saves") ;;
  do w <- get;
  if truthy (_error (self w)) then
    ret (RetError (_error (self w)))
  else if negb (length (_saveQueue (self w)) =? 0)%nat then
    _startTimer ;;
    do j <- new_promise;
    modify (set_finalizedPromise (Some j)) ;;
    ret (RetFinalized j)
  else
    match savePromise (vars w) with
    | Some k => ret (RetChained k)
    | None => throw (TypeError "Cannot read property 'then' of undefined")
    end.

(** The outcome, in world [w], of a promise [finalize] returned. *)
Definition outcome (w : world) (r : finalize_ret) : pstate :=
  match r with
  | RetError e => Rejected e
  | RetFinalized j => default Pending (promises (env w) !! j)
  | RetChained k => default Pending (handled <$> dispatches (env w) !! k)
  end.

(** ** Callbacks run by the host *)

(** An armed timer fires: it leaves the timer table and [rateLimiter]
    runs.  A timer that is not armed cannot fire. *)
Definition timer_fires (id : nat) : M unit :=
  do w <- get;
  if decide (id ∈ timers (env w)) then
    modify (set_timers (timers (env w) ∖ {[id]}) (next_timer (env w))) ;;
    rateLimiter
  else ret tt.

(** Every sub-batch of dispatch [k] was saved: the joined promise
    resolves, so does the promise derived by [.fail], and the
    continuation attached to the latter runs. *)
Definition save_succeeds (k : nat) : M unit :=
  do w <- get;
  match dispatches (env w) !! k with
  | Some d =>
      match joined d with
      | Pending =>
          update_dispatch k (fun d => with_handled Resolved (with_joined Resolved d)) ;;
          if tacked d then resolve_finalized else ret tt
      | _ => ret tt
      end
  | None => ret tt
  end.

(** The joined promise of dispatch [k] is rejected with [err]:
    [errHandler(err)] runs.  Parse.Promise rejects the promise derived
    by [.fail] with what the handler returned, which is [undefined];
    a continuation attached with [then] does not run on rejection. *)
Definition save_fails (k : nat) (err : value) : M unit :=
  do w <- get;
  match dispatches (env w) !! k with
  | Some d =>
      match joined d with
      | Pending =>
          update_dispatch k (with_joined (Rejected err)) ;;
          errHandler err ;;
          update_dispatch k (with_handled (Rejected VUndefined))
      | _ => ret tt
      end
  | None => ret tt
  end.

(** ** Events and reachable states *)

Inductive event : Type :=
| Save (object : value)
| SaveAll (objects : value)
| Finalize
| TimerFires (id : nat)
| SaveSucceeds (k : nat)
| SaveFails (k : nat) (err : value).

Definition exec {A} (c : M A) (w : world) : world := snd (c w).

Definition step (e : event) (w : world) : world :=
  match e with
  | Save object => exec (save object) w
  | SaveAll objects => exec (saveAll objects) w
  | Finalize => exec finalize w
  | TimerFires id => exec (timer_fires id) w
  | SaveSucceeds k => exec (save_succeeds k) w
  | SaveFails k err => exec (save_fails k err) w
  end.

Definition run (evs : list event) (w : world) : world :=
  fold_left (fun w e => step e w) evs w.

Inductive reachable (maxRate : nat) : world -> Prop :=
| reach_init : reachable maxRate (init maxRate)
| reach_step e w : reachable maxRate w -> reachable maxRate (step e w).

(** ** Sample data for the scenarios of the specification *)

Definition itemA : value := VParseObject 1.
Definition itemB : value := VParseObject 2.
Definition itemC : value := VParseObject 3.
Definition errorE1 : value := VObject 7.

(** [maxRate = 10], enqueue [A, B], finalize, the first tick, and the
    only sub-batch fails with [E1]. *)
Definition halted_after_finalize : list event :=
  [Save itemA; Save itemB; Finalize; TimerFires 1; SaveFails 0 errorE1].

(** [maxRate = 1], enqueue [A, B], finalize, both ticks; the save of [B]
    has succeeded while the save of [A] is still in flight. *)
Definition late_first_batch : list event :=
  [Save itemA; Save itemB; Finalize; TimerFires 1; TimerFires 2; SaveSucceeds 1].

(** ** Pacing against a backend that always succeeds *)

(** One pacing round: the tick that [timer] names fires, then the
    dispatch it issued is saved. *)
Definition pace (w : world) : world :=
  match timer (vars w) with
  | Some id =>
      let w1 := exec (timer_fires id) w in
      match savePromise (vars w1) with
      | Some k => exec (save_succeeds k) w1
      | None => w1
      end
  | None => w
  end.

(** While draining: [finalize] was called once, its completion request
    is pending, the queue holds [q], exactly one tick is armed and [j]
    slices were dispatched so far. *)
Definition pacing (r : nat) (q : list value) (j : nat) (w : world) : Prop :=
  self w = {| _maxRate := r; _killSwitch := false; _saveQueue := q;
              _error := VUndefined; killswitch := VUndefined |} /\
  finalizedPromise (vars w) = Some 0 /\
  promises (env w) = [Pending] /\
  (exists id, timer (vars w) = Some id /\ timers (env w) = {[id]}) /\
  length (dispatches (env w)) = j.

(** A schedule on which the backend always succeeds and the caller
    does nothing more: ticks and successful saves, in any order. *)
Definition backend_succeeds (evs : list event) : bool :=
  forallb (fun e => match e with
                    | TimerFires _ | SaveSucceeds _ => true
                    | _ => false
                    end) evs.

(** The ticks of a schedule that fire: a tick fires when its timer is
    armed at that moment. *)
Fixpoint fired (evs : list event) (w : world) : nat :=
  match evs with
  | [] => 0
  | e :: evs =>
      match e with
      | TimerFires id => if decide (id ∈ timers (env w)) then 1 else 0
      | _ => 0
      end + fired evs (step e w)
  end.

(** What [t] ticks at rate [r] hand to the backend when they take the
    items [r] at a time: tick [j] splits items [j r] to [j r + r - 1]. *)
Definition slices (r : nat) (items : list value) (t : nat) : list (list (list value)) :=
  (fun j => saveInBatches_loop (take r (drop (j * r) items)) []) <$> seq 0 t.

(** After [t] ticks of draining [items] at rate [r], whichever saves
    have completed: the first [t r] items are gone from the queue and
    were dispatched slice by slice, and a tick is armed exactly while
    items are left. *)
Definition draining (r : nat) (items : list value) (t : nat) (w : world) : Prop :=
  self w = {| _maxRate := r; _killSwitch := false;
              _saveQueue := drop (t * r) items;
              _error := VUndefined; killswitch := VUndefined |} /\
  batches <$> dispatches (env w) = slices r items t /\
  t * r < length items + r /\
  (t * r < length items ->
   exists id, timer (vars w) = Some id /\ timers (env w) = {[id]}) /\
  (length items <= t * r ->
   timer (vars w) = None /\ timers (env w) = ∅).

(** ** Predicates used by the proofs *)

(** [wp c Q w]: running [c] from [w] ends in a completion and a world
    that satisfy [Q]. *)
Definition wp {A} (c : M A) (Q : completion A -> world -> Prop) (w : world) : Prop :=
  Q (fst (c w)) (snd (c w)).

(** The only timer that can be armed is the one [timer] names. *)
Definition timer_owned (w : world) : Prop :=
  forall id, id ∈ timers (env w) -> timer (vars w) = Some id.

(** An error is stored only by the halt. *)
Definition error_only_halted (w : world) : Prop :=
  _killSwitch (self w) = false -> _error (self w) = VUndefined.

(** Nothing writes the property line 91 reads. *)
Definition killswitch_unset (w : world) : Prop :=
  killswitch (self w) = VUndefined.

Definition inv (w : world) : Prop :=
  timer_owned w /\ error_only_halted w /\ killswitch_unset w.

(** ** Bookkeeping for the properties of whole runs *)

(** The items of one dispatch, and all the items handed to the backend
    so far, in the order of submission. *)
Definition slice_of (d : dispatch) : list value := concat (batches d).

Definition sent (w : world) : list value :=
  concat (slice_of <$> dispatches (env w)).

(** The items an event puts on the queue: [save] takes a Parse object,
    [saveAll] an array in which [_.find] meets no truthy intruder. *)
Definition accepted (e : event) : list value :=
  match e with
  | Save object => if is_parse_object object then [object] else []
  | SaveAll objects =>
      if is_array objects
         && negb (truthy (_find objects (fun object => negb (is_parse_object object))))
      then elements_of objects else []
  | _ => []
  end.

Definition is_enqueue (e : event) : bool :=
  match e with Save _ | SaveAll _ => true | _ => false end.

Definition is_failure (e : event) : bool :=
  match e with SaveFails _ _ => true | _ => false end.

(** Halted with nothing left to do: no item queued, no tick armed. *)
Definition idle_halted (w : world) : Prop :=
  _killSwitch (self w) = true /\
  _saveQueue (self w) = [] /\
  timers (env w) = ∅.

(** A dispatch that respects the rate [r] and the sub-batch size. *)
Definition within_rate (r : nat) (d : dispatch) : Prop :=
  length (slice_of d) <= r /\
  Forall (fun b => 0 < length b <= batchSize) (batches d).

(** Ticks and dispatches exist only once [finalize] has created a
    completion request, so a failure always finds one to reject. *)
Definition request_first (w : world) : Prop :=
  _error (self w) = VUndefined /\
  (finalizedPromise (vars w) = None ->
   timers (env w) = ∅ /\ dispatches (env w) = []).

(** The completion request [finalize] last created is newer than
    request [j], whose outcome is [p]. *)
Definition superseded (j : nat) (p : option pstate) (w : world) : Prop :=
  (exists j', finalizedPromise (vars w) = Some j' /\
              j < j' /\ j' < length (promises (env w))) /\
  promises (env w) !! j = p.

(** With [maxRate = 0]: the queue holds [q], one tick is armed, the
    completion request is pending and every dispatch so far was empty. *)
Definition stalled (q : list value) (w : world) : Prop :=
  self w = {| _maxRate := 0; _killSwitch := false; _saveQueue := q;
              _error := VUndefined; killswitch := VUndefined |} /\
  finalizedPromise (vars w) = Some 0 /\
  promises (env w) = [Pending] /\
  (exists id, timer (vars w) = Some id /\ timers (env w) = {[id]}) /\
  Forall (fun d => batches d = [] /\ joined d = Resolved) (dispatches (env w)).

(** On an instance that is not halted, the id in [timer] is armed. *)
Definition timer_live (w : world) : Prop :=
  _killSwitch (self w) = false ->
  forall id, timer (vars w) = Some id -> id ∈ timers (env w).

(** * Properties *)

(** ** Running the monad symbolically *)

Lemma wp_bind {A B} (c : M A) (k : A -> M B) Q (w : world) :
  wp c (fun r w' =>
          match r with
          | Normal a => wp (k a) Q w'
          | Throw e => Q (Throw e) w'
          end) w ->
  wp (bind c k) Q w.
Proof. unfold wp, bind. by destruct (c w) as [[a|e] w']. Qed.

Lemma wp_ret {A} (a : A) Q (w : world) : Q (Normal a) w -> wp (ret a) Q w.
Proof. done. Qed.

Lemma wp_get Q (w : world) : Q (Normal w) w -> wp get Q w.
Proof. done. Qed.

Lemma wp_modify (f : world -> world) Q (w : world) :
  Q (Normal tt) (f w) -> wp (modify f) Q w.
Proof. done. Qed.

Lemma wp_throw {A} (e : exn) (Q : completion A -> world -> Prop) (w : world) :
  Q (Throw e) w -> wp (throw e) Q w.
Proof. done. Qed.

Lemma wp_exec {A} (c : M A) (P : world -> Prop) (w : world) :
  wp c (fun _ w' => P w') w -> P (exec c w).
Proof. done. Qed.

(** ** The sub-batches of one dispatch *)

Lemma drop_batch_shorter (o : value) (objects : list value) :
  length (drop batchSize (o :: objects)) < length (o :: objects).
Proof. rewrite length_drop. unfold batchSize. simpl. lia. Qed.

Lemma saveInBatches_loop_app (objects : list value) (promises : list (list value)) :
  saveInBatches_loop objects promises = promises ++ saveInBatches_loop objects [].
Proof.
  remember (length objects) as n eqn:Hn.
  revert objects promises Hn.
  induction n as [n IH] using lt_wf_ind. intros [|o objects] promises Hn.
  - simp saveInBatches_loop. by rewrite app_nil_r.
  - simp saveInBatches_loop.
    pose proof (drop_batch_shorter o objects) as Hlt.
    rewrite (IH _ ltac:(subst n; exact Hlt) _ (promises ++ _) eq_refl).
    rewrite (IH _ ltac:(subst n; exact Hlt) _ ([] ++ _) eq_refl).
    by rewrite app_nil_l, app_assoc.
Qed.

(** One turn of the loop, seen from the result. *)
Lemma saveInBatches_loop_cons (o : value) (objects : list value) :
  saveInBatches_loop (o :: objects) [] =
  take batchSize (o :: objects) :: saveInBatches_loop (drop batchSize (o :: objects)) [].
Proof.
  simp saveInBatches_loop. by rewrite saveInBatches_loop_app.
Qed.

Lemma saveInBatches_loop_concat (objects : list value) :
  concat (saveInBatches_loop objects []) = objects.
Proof.
  remember (length objects) as n eqn:Hn. revert objects Hn.
  induction n as [n IH] using lt_wf_ind. intros [|o objects] Hn.
  - by simp saveInBatches_loop.
  - rewrite saveInBatches_loop_cons. cbn [concat].
    rewrite (IH _ ltac:(subst n; apply drop_batch_shorter) _ eq_refl).
    apply take_drop.
Qed.

Lemma saveInBatches_loop_sizes (objects : list value) :
  Forall (fun b => 0 < length b <= batchSize) (saveInBatches_loop objects []).
Proof.
  remember (length objects) as n eqn:Hn. revert objects Hn.
  induction n as [n IH] using lt_wf_ind. intros [|o objects] Hn.
  - simp saveInBatches_loop. constructor.
  - rewrite saveInBatches_loop_cons. constructor.
    + rewrite length_take. unfold batchSize. cbn [length]. lia.
    + apply (IH _ ltac:(subst n; apply drop_batch_shorter) _ eq_refl).
Qed.

(** The [i]-th request carries the [i]-th segment of the slice. *)
Lemma saveInBatches_loop_lookup (objects : list value) (i : nat) (b : list value) :
  saveInBatches_loop objects [] !! i = Some b ->
  i * batchSize < length objects /\
  b = take batchSize (drop (i * batchSize) objects).
Proof.
  revert objects. induction i as [|i IH]; intros [|o objects].
  - simp saveInBatches_loop. discriminate.
  - rewrite saveInBatches_loop_cons. intros [= <-]. split; [cbn [length Nat.mul]; lia | reflexivity].
  - simp saveInBatches_loop. discriminate.
  - rewrite saveInBatches_loop_cons. cbn [lookup list_lookup].
    intros H. apply IH in H as [Hlt ->]. rewrite length_drop in Hlt.
    split; [lia |]. rewrite drop_drop. reflexivity.
Qed.

(** C8. The sub-batches [saveInBatches] submits for a slice are its
    consecutive segments of ten: the [i]-th request carries the items
    at positions [10 i] to [10 i + 9], every request carries between one
    and ten items, and their concatenation is the slice itself. *)
Theorem saveInBatches_partitions_slice (objects : list value) (w : world) :
  exists d,
    saveInBatches objects w =
      (Normal (length (dispatches (env w))),
       set_dispatches (dispatches (env w) ++ [d]) w) /\
    concat (batches d) = objects /\
    Forall (fun b => 0 < length b <= 10) (batches d) /\
    (forall i b, batches d !! i = Some b ->
                 b = take 10 (drop (i * 10) objects)).
Proof.
  eexists. split; [reflexivity |]. cbn [batches].
  split; [apply saveInBatches_loop_concat |].
  split; [apply saveInBatches_loop_sizes |].
  intros i b H. by apply saveInBatches_loop_lookup in H as [_ ->].
Qed.

Lemma alter_last {A} (f : A -> A) (l : list A) (x : A) :
  alter f (length l) (l ++ [x]) = l ++ [f x].
Proof. induction l as [|y l IH]; [done |]. cbn. by f_equal. Qed.

Lemma lookup_last {A} (l : list A) (x : A) : (l ++ [x]) !! length l = Some x.
Proof. by apply list_lookup_middle. Qed.

Ltac proj :=
  cbn [self vars env timers next_timer promises dispatches console
       _maxRate _killSwitch _saveQueue _error killswitch
       finalizedPromise toSave timer savePromise fst snd
       set_killSwitch set_saveQueue set_error set_finalizedPromise
       set_toSave set_timer set_savePromise set_timers set_promises
       set_dispatches set_console] in *.

Ltac wp_simpl :=
  proj;
  cbn [take drop length Nat.eqb negb truthy];
  rewrite ?saveInBatches_loop_cons, ?alter_last, ?lookup_last;
  cbn [fmap option_fmap option_map batches joined handled tacked
       with_joined with_handled with_tacked].

(** One step of symbolic execution, in program order. *)
Ltac wp_step :=
  lazymatch goal with
  | |- wp (bind _ _) _ _ => apply wp_bind
  | |- wp (ret _) _ _ => apply wp_ret
  | |- wp get _ _ => apply wp_get
  | |- wp (modify _) _ _ => apply wp_modify
  | |- wp (throw _) _ _ => apply wp_throw
  | |- wp (if ?b then _ else _) _ _ => destruct b eqn:?
  | |- wp (match ?x with _ => _ end) _ _ => destruct x eqn:?
  | |- wp (console_log _) _ _ => unfold console_log
  | |- wp (clearTimeout _) _ _ => unfold clearTimeout
  | |- wp (update_dispatch _ _) _ _ => unfold update_dispatch
  | |- wp (promise_fail _) _ _ => unfold promise_fail
  | |- wp (tack_resolution _) _ _ => unfold tack_resolution
  | |- wp resolve_finalized _ _ => unfold resolve_finalized
  | |- wp (errHandler _) _ _ => unfold errHandler
  | |- wp rateLimiter _ _ => unfold rateLimiter
  | |- wp _startTimer _ _ => unfold _startTimer
  | |- wp (save _) _ _ => unfold save
  | |- wp (saveAll _) _ _ => unfold saveAll
  | |- wp finalize _ _ => unfold finalize
  | |- wp (timer_fires _) _ _ => unfold timer_fires
  | |- wp (save_succeeds _) _ _ => unfold save_succeeds
  | |- wp (save_fails _ _) _ _ => unfold save_fails
  | |- wp (setTimeout _) _ _ => unfold wp at 1, setTimeout
  | |- wp new_promise _ _ => unfold wp at 1, new_promise
  | |- wp (saveInBatches _) _ _ => unfold wp at 1, saveInBatches
  | |- wp (promise_resolve ?j) _ ?w =>
      unfold wp at 1, promise_resolve; proj;
      match goal with |- context [?l !! j] => destruct (l !! j) as [[| |?]|] eqn:? end
  | |- wp (promise_reject ?j _) _ ?w =>
      unfold wp at 1, promise_reject; proj;
      match goal with |- context [?l !! j] => destruct (l !! j) as [[| |?]|] eqn:? end
  end; wp_simpl.

Ltac wp_run := repeat wp_step.

(** ** Invariants of reachable states *)

Lemma inv_init (r : nat) : inv (init r).
Proof. repeat split; try done. Qed.

Ltac inv_start w :=
  let H := fresh in
  intros H; apply wp_exec; revert H;
  destruct w as [[r ks q err kl] [fp ts tm sp] [tms nt ps ds cs]];
  unfold inv, timer_owned, error_only_halted, killswitch_unset;
  proj; intros (Htm & Herr & ->).

Ltac timer_goal :=
  let id := fresh "id" in
  let Hid := fresh "Hid" in
  intros id Hid; set_unfold in Hid;
  repeat match goal with
         | H : _ /\ _ |- _ => destruct H
         | H : _ \/ _ |- _ => destruct H
         end;
  repeat match goal with
         | Hm : ?x ∈ ?s, Ht : forall i, i ∈ ?s -> ?t = Some i |- _ =>
             lazymatch goal with
             | _ : t = Some x |- _ => fail
             | _ => pose proof (Ht _ Hm)
             end
         end;
  subst; congruence.

Ltac inv_finish := repeat split; try done; try timer_goal.

Lemma inv_save (object : value) (w : world) : inv w -> inv (exec (save object) w).
Proof. inv_start w. wp_run; inv_finish. Qed.

Lemma inv_saveAll (objects : value) (w : world) : inv w -> inv (exec (saveAll objects) w).
Proof. inv_start w. wp_run; inv_finish. Qed.

Lemma inv_finalize (w : world) : inv w -> inv (exec finalize w).
Proof. inv_start w. wp_run; inv_finish. Qed.

Lemma inv_timer_fires (id : nat) (w : world) : inv w -> inv (exec (timer_fires id) w).
Proof. inv_start w. wp_run; inv_finish. Qed.

Lemma inv_save_succeeds (k : nat) (w : world) : inv w -> inv (exec (save_succeeds k) w).
Proof. inv_start w. wp_run; inv_finish. Qed.

Lemma inv_save_fails (k : nat) (e : value) (w : world) : inv w -> inv (exec (save_fails k e) w).
Proof. inv_start w. wp_run; inv_finish. Qed.

Lemma inv_step (e : event) (w : world) : inv w -> inv (step e w).
Proof.
  destruct e; simpl;
    auto using inv_save, inv_saveAll, inv_finalize, inv_timer_fires,
      inv_save_succeeds, inv_save_fails.
Qed.

Lemma reachable_inv (r : nat) (w : world) : reachable r w -> inv w.
Proof. induction 1; [apply inv_init | by apply inv_step]. Qed.

Lemma reachable_run (r : nat) (evs : list event) (w : world) :
  reachable r w -> reachable r (run evs w).
Proof.
  revert w. induction evs as [|e evs IH]; intros w Hw; [done |].
  apply IH. by constructor.
Qed.

(** ** The halt procedure *)

Lemma errHandler_halted (e : value) (w : world) :
  _killSwitch (self w) = true -> errHandler e w = (Normal tt, w).
Proof. intros H. unfold errHandler, bind, get. by rewrite H. Qed.

Lemma errHandler_halts (e : value) (w : world) :
  _killSwitch (self (exec (errHandler e) w)) = true.
Proof.
  apply (wp_exec _ (fun w' => _killSwitch (self w') = true)).
  destruct w as [[r ks q err kl] [fp ts tm sp] [tms nt ps ds cs]].
  wp_run; done.
Qed.

(** C7. The halt procedure is idempotent: invoked on an instance
    that is already halted, and in particular a second time in a row,
    [errHandler] returns at once and leaves every field, timer, promise
    and log line as it was. *)
Theorem errHandler_idempotent (e1 e2 : value) (w : world) :
  let w1 := exec (errHandler e1) w in
  errHandler e2 w1 = (Normal tt, w1) /\
  (forall w', _killSwitch (self w') = true -> errHandler e2 w' = (Normal tt, w')).
Proof.
  split; [apply errHandler_halted, errHandler_halts | apply errHandler_halted].
Qed.

Lemma errHandler_idempotent_witness :
  let w1 := exec (errHandler errorE1) (run late_first_batch (init 1)) in
  _killSwitch (self w1) = true /\
  errHandler (VObject 8) w1 = (Normal tt, w1).
Proof.
  split; [reflexivity |].
  exact (proj1 (errHandler_idempotent errorE1 (VObject 8) (run late_first_batch (init 1)))).
Defined.




(** ** Enqueueing *)

(** C4. [saveAll] is all-or-nothing: whenever it throws, the fields of
    the instance, the closure variables, the timers, the promises and
    the dispatches are those of before the call; only the console may
    have received the two diagnostic lines. *)
Theorem saveAll_all_or_nothing (objects : value) (w w' : world) (e : exn) :
  saveAll objects w = (Throw e, w') ->
  w' = set_console (console (env w')) w.
Proof.
  intros H.
  assert (Hwp : wp (saveAll objects)
                  (fun r w1 => match r with
                               | Throw _ => w1 = set_console (console (env w1)) w
                               | Normal _ => True
                               end) w).
  { destruct w as [[r ks q err kl] [fp ts tm sp] [tms nt ps ds cs]].
    wp_run; done. }
  unfold wp in Hwp. by rewrite H in Hwp.
Qed.

Lemma saveAll_all_or_nothing_witness :
  let w := exec (save itemC) (init 10) in
  let bad := VArray [itemA; VStr "not-an-item"; itemB] in
  let w' := snd (saveAll bad w) in
  fst (saveAll bad w) = Throw (Error "Cannot process item that is not a Parse object") /\
  _saveQueue (self w') = [itemC] /\
  w' = set_console (console (env w')) w.
Proof.
  intros w bad w'.
  split; [vm_compute; reflexivity |]. split; [vm_compute; reflexivity |].
  apply (saveAll_all_or_nothing bad w w'
           (Error "Cannot process item that is not a Parse object")).
  vm_compute. reflexivity.
Defined.

(** C5, evaluated where it fails.  [if (notParseObject)] tests the
    offending element itself, so an array whose first non-Parse element
    is falsy ([null], [undefined], [0], [false] or the empty string) is
    accepted and appended as it is. *)
Theorem saveAll_accepts_falsy_element :
  saveAll (VArray [itemA; VNull; itemB]) (init 10) =
    (Normal tt, set_saveQueue [itemA; VNull; itemB] (init 10)).
Proof. reflexivity. Qed.

(** C10 (amended). On a halted instance [save] with a valid item
    still succeeds: it appends the item to the queue and changes
    nothing else. *)
Theorem save_when_halted (object : value) (w : world) :
  _killSwitch (self w) = true ->
  is_parse_object object = true ->
  save object w = (Normal tt, set_saveQueue (_saveQueue (self w) ++ [object]) w).
Proof. intros _ H. unfold save. by rewrite H. Qed.

Lemma save_when_halted_witness :
  let w := run halted_after_finalize (init 10) in
  (_killSwitch (self w) = true /\ is_parse_object itemC = true) /\
  save itemC w = (Normal tt, set_saveQueue [itemC] w).
Proof.
  split; [split; reflexivity |].
  exact (save_when_halted itemC (run halted_after_finalize (init 10)) eq_refl eq_refl).
Defined.

(** C10 as stated fails: the instance is halted, the item is valid, and
    the call changes the state. *)
Lemma save_when_halted_changes_state :
  ~ (forall r w object,
       reachable r w ->
       _killSwitch (self w) = true ->
       is_parse_object object = true ->
       exec (save object) w = w).
Proof.
  intros H.
  specialize (H 10 (run halted_after_finalize (init 10)) itemC
                (reachable_run 10 _ _ (reach_init 10)) eq_refl eq_refl).
  apply (f_equal (fun w => _saveQueue (self w))) in H.
  vm_compute in H. discriminate H.
Qed.

(** ** Finalize *)

(** C3, evaluated where it fails.  On a fresh instance [savePromise]
    is still [undefined], so [savePromise.then] raises a [TypeError]
    instead of returning a resolved promise. *)
Theorem finalize_before_any_dispatch (r : nat) :
  fst (finalize (init r)) =
    Throw (TypeError "Cannot read property 'then' of undefined").
Proof. reflexivity. Qed.

(** C2, evaluated where it fails.  The first [finalize] returned the
    completion request and the failure rejected it with [E1]; the error
    was not stored, so the next [finalize] goes through the last branch
    and returns a promise chained to [savePromise], which carries
    [undefined] and not [E1]. *)
Theorem finalize_again_after_halt :
  let w0 := run [Save itemA; Save itemB] (init 10) in
  let w := run halted_after_finalize (init 10) in
  fst (finalize w0) = Normal (RetFinalized 0) /\
  outcome w (RetFinalized 0) = Rejected errorE1 /\
  _error (self w) = VUndefined /\
  fst (finalize w) = Normal (RetChained 0) /\
  outcome (exec finalize w) (RetChained 0) = Rejected VUndefined.
Proof. vm_compute. repeat split. Qed.

(** ** The pacer *)

(** C1, evaluated where it fails.  Line 91 reads [self.killswitch],
    which nothing sets, so the guard never holds: after a halt, one more
    [save] and [finalize] arm a tick that takes the item off the queue
    and hands it to the backend. *)
Theorem rateLimiter_runs_when_halted :
  let w := run (halted_after_finalize ++ [Save itemC; Finalize]) (init 10) in
  let w' := step (TimerFires 2) w in
  _killSwitch (self w) = true /\
  elements (timers (env w)) = [2] /\
  _saveQueue (self w) = [itemC] /\
  _saveQueue (self w') = [] /\
  batches <$> dispatches (env w) = [[[itemA; itemB]]] /\
  batches <$> dispatches (env w') = [[[itemA; itemB]]; [[itemC]]].
Proof. vm_compute. repeat split. Qed.

Ltac norm_world :=
  cbv [set_killSwitch set_saveQueue set_error set_finalizedPromise
       set_toSave set_timer set_savePromise set_timers set_promises
       set_dispatches set_console
       self vars env timers next_timer promises dispatches console
       _maxRate _killSwitch _saveQueue _error killswitch
       finalizedPromise toSave timer savePromise].

Ltac wp_exec_next :=
  match goal with
  | |- context [exec ?c ?w0] => pattern (exec c w0); apply wp_exec
  end.

(** ** Draining the queue *)

Lemma find_all_parse (items : list value) :
  Forall (fun v => is_parse_object v = true) items ->
  _find (VArray items) (fun object => negb (is_parse_object object)) = VUndefined.
Proof.
  unfold _find. cbn [elements_of].
  induction 1 as [|v items Hv _ IH]; [done |].
  cbn [List.find]. by rewrite Hv.
Qed.

Lemma saveAll_valid (items : list value) (w : world) :
  Forall (fun v => is_parse_object v = true) items ->
  saveAll (VArray items) w =
    (Normal tt, set_saveQueue (_saveQueue (self w) ++ items) w).
Proof. intros H. unfold saveAll. by rewrite (find_all_parse items H). Qed.

Lemma drain_start (r : nat) (items : list value) :
  items <> [] ->
  Forall (fun v => is_parse_object v = true) items ->
  pacing r items 0 (run [SaveAll (VArray items); Finalize] (init r)).
Proof.
  intros Hne Hall. unfold run. cbn [fold_left step].
  unfold exec at 2. rewrite (saveAll_valid items _ Hall). cbn [snd].
  destruct items as [|o items]; [done |].
  unfold init. norm_world. cbn [app]. wp_exec_next. wp_run.
  unfold pacing. norm_world. repeat split.
  exists 1. split; [done |]. by rewrite (left_id_L ∅ (∪)).
Qed.

Lemma ceil_bounds (n r : nat) :
  0 < r -> 0 < n ->
  let k := (n + r - 1) / r in
  0 < k /\ (k - 1) * r < n /\ n <= k * r.
Proof.
  intros Hr Hn k.
  pose proof (Nat.div_mod_eq (n + r - 1) r) as Hdm.
  pose proof (Nat.mod_upper_bound (n + r - 1) r ltac:(lia)) as Hmod.
  fold k in Hdm. nia.
Qed.

(** * Further properties of whole runs *)

(** Symbolic execution of one event from a world given field by field. *)
Ltac step_open e w :=
  destruct w as [[r0 ks q err kl] [fp ts tm sp] [tms nt ps ds cs]];
  destruct e; cbn [step]; proj.

Ltac step_exec :=
  (match goal with |- context [exec ?c ?w0] => pattern (exec c w0) end);
  apply wp_exec; proj; wp_run.

Lemma run_snoc (evs : list event) (e : event) (w : world) :
  run (evs ++ [e]) w = step e (run evs w).
Proof. unfold run. by rewrite fold_left_app. Qed.

Lemma run_cons (e : event) (evs : list event) (w : world) :
  run (e :: evs) w = run evs (step e w).
Proof. done. Qed.

(** ** What no event changes *)

Lemma step_maxRate (e : event) (w : world) :
  _maxRate (self (step e w)) = _maxRate (self w).
Proof. step_open e w; step_exec; done. Qed.

Lemma step_halted (e : event) (w : world) :
  _killSwitch (self w) = true ->
  _killSwitch (self (step e w)) = true /\
  _error (self (step e w)) = _error (self w).
Proof. step_open e w; intros ->; step_exec; done. Qed.

Lemma run_maxRate (r : nat) (evs : list event) :
  _maxRate (self (run evs (init r))) = r.
Proof.
  induction evs as [|e evs IH] using rev_ind; [done |].
  by rewrite run_snoc, step_maxRate.
Qed.

(** X1. The rate is fixed at construction: whatever is called and
    whatever the host does, [_maxRate] keeps the value the constructor
    received. *)
Theorem maxRate_is_fixed (r : nat) (evs : list event) :
  _maxRate (self (run evs (init r))) = r.
Proof. apply run_maxRate. Qed.

(** X2. The halt is permanent: once [_killSwitch] is set, no call and
    no callback clears it. *)
Theorem halted_is_permanent (evs : list event) (w : world) :
  _killSwitch (self w) = true ->
  _killSwitch (self (run evs w)) = true.
Proof.
  revert w. induction evs as [|e evs IH]; intros w Hw; [done |].
  rewrite run_cons. apply IH. by apply step_halted.
Qed.

Lemma halted_is_permanent_witness :
  let w := run halted_after_finalize (init 10) in
  _killSwitch (self w) = true /\
  _killSwitch (self (run [Save itemC; Finalize; TimerFires 2; SaveSucceeds 1] w)) = true.
Proof.
  intros w.
  assert (H : _killSwitch (self w) = true) by (vm_compute; reflexivity).
  split; [exact H |].
  exact (halted_is_permanent [Save itemC; Finalize; TimerFires 2; SaveSucceeds 1] w H).
Defined.

(** X3. At most one pacing tick is armed at any time, and it is the one
    the variable [timer] refers to. *)
Theorem one_tick_armed (r : nat) (evs : list event) :
  let w := run evs (init r) in
  timers (env w) = ∅ \/
  exists id, timer (vars w) = Some id /\ timers (env w) = {[id]}.
Proof.
  intros w.
  assert (Hown : timer_owned w).
  { apply (reachable_inv r). apply reachable_run, reach_init. }
  unfold timer_owned in Hown.
  destruct (timer (vars w)) as [id|] eqn:Htm.
  - destruct (decide (id ∈ timers (env w))) as [Hin|Hout].
    + right. exists id. split; [done |].
      apply set_eq. intros x. rewrite elem_of_singleton. split.
      * intros Hx. apply Hown in Hx. congruence.
      * by intros ->.
    + left. apply elem_of_equiv_empty_L. intros x Hx.
      pose proof (Hown x Hx) as Heq. congruence.
  - left. apply elem_of_equiv_empty_L. intros x Hx.
    by pose proof (Hown x Hx).
Qed.

(** ** The stored error *)

Ltac no_request_absurd :=
  match goal with
  | H : _ ∈ ∅ |- _ => exfalso; exact (not_elem_of_empty _ H)
  | H : [] !! _ = Some _ |- _ => by rewrite lookup_nil in H
  end.

Lemma request_first_step (e : event) (w : world) :
  request_first w -> request_first (step e w).
Proof.
  unfold request_first. step_open e w; intros [-> Hfp]; step_exec.
  all: try (destruct (Hfp eq_refl) as [Ht Hd]; subst tms ds; no_request_absurd).
  all: (split; [done |]); try done.
  all: intros Hnone; destruct (Hfp Hnone) as [Ht Hd]; subst tms ds.
  all: try no_request_absurd.
Qed.

Lemma request_first_run (r : nat) (evs : list event) :
  request_first (run evs (init r)).
Proof.
  induction evs as [|e evs IH] using rev_ind; [by split |].
  rewrite run_snoc. by apply request_first_step.
Qed.

(** X4. Through [save], [saveAll], [finalize] and the callbacks of the
    host, no error is ever stored: a tick needs the timer that only
    [finalize] arms, and [finalize] creates the completion request at
    once, so a failure always takes the branch that rejects it.  Hence
    [finalize] never answers with [Parse.Promise.error]. *)
Theorem error_never_stored (r : nat) (evs : list event) :
  let w := run evs (init r) in
  _error (self w) = VUndefined /\
  forall e, fst (finalize w) <> Normal (RetError e).
Proof.
  intros w. destruct (request_first_run r evs) as [Herr _]. fold w in Herr.
  split; [done |]. intros e.
  pattern (fst (finalize w)).
  change (wp finalize (fun c _ => c <> Normal (RetError e)) w).
  destruct w as [[r0 ks q err kl] [fp ts tm sp] [tms nt ps ds cs]].
  proj. subst err. wp_run; done.
Qed.

(** X5. A stored error is kept: on a halted instance whose [_error] is
    truthy, every later [finalize], whatever happened in between,
    returns a promise rejected with that same error. *)
Theorem stored_error_is_kept (evs : list event) (w : world) :
  _killSwitch (self w) = true ->
  truthy (_error (self w)) = true ->
  fst (finalize (run evs w)) = Normal (RetError (_error (self w))).
Proof.
  revert w. induction evs as [|e evs IH]; intros w Hk He.
  - cbn [run fold_left].
    change (wp finalize (fun c _ => c = Normal (RetError (_error (self w)))) w).
    destruct w as [[r0 ks q err kl] [fp ts tm sp] [tms nt ps ds cs]].
    proj. wp_run; congruence.
  - rewrite run_cons. destruct (step_halted e w Hk) as [Hk' He'].
    rewrite <- He'. apply IH; [done | by rewrite He'].
Qed.

Lemma stored_error_is_kept_witness :
  let w := exec (save_fails 0 errorE1)
             (exec (timer_fires 1)
                (exec _startTimer (run [Save itemA; Save itemB] (init 10)))) in
  (_killSwitch (self w) = true /\ truthy (_error (self w)) = true) /\
  fst (finalize (run [Save itemC; Finalize; Finalize] w)) = Normal (RetError errorE1).
Proof.
  intros w.
  assert (Hk : _killSwitch (self w) = true) by (vm_compute; reflexivity).
  assert (He : truthy (_error (self w)) = true) by (vm_compute; reflexivity).
  split; [by split |].
  exact (stored_error_is_kept [Save itemC; Finalize; Finalize] w Hk He).
Defined.

(** ** A completion request replaced by a later [finalize] *)

Lemma superseded_step (j : nat) (p : option pstate) (e : event) (w : world) :
  superseded j p w -> superseded j p (step e w).
Proof.
  unfold superseded. step_open e w.
  all: intros [(j' & -> & Hlt & Hlen) Hp]; step_exec.
  all: split;
    [ eexists; split; [reflexivity |];
      rewrite ?length_app, ?length_insert; cbn [length]; lia
    | rewrite ?lookup_app_l, ?list_lookup_insert_ne by lia; done ].
Qed.

(** X6. [finalize] overwrites [finalizedPromise]: once a later call has
    created a new completion request, no event ever settles an earlier
    one.  It keeps the outcome it had, so a request that was pending
    when it was replaced stays pending for ever. *)
Theorem superseded_request_never_settles
    (j j' : nat) (evs : list event) (w : world) :
  finalizedPromise (vars w) = Some j' ->
  j < j' ->
  j' < length (promises (env w)) ->
  promises (env (run evs w)) !! j = promises (env w) !! j.
Proof.
  intros Hfp Hlt Hlen.
  assert (H : superseded j (promises (env w) !! j) w).
  { split; [by exists j' | done]. }
  clear Hfp Hlt Hlen. revert H. generalize (promises (env w) !! j). intros p.
  revert w. induction evs as [|e evs IH]; intros w H; [by destruct H |].
  rewrite run_cons. apply IH. by apply superseded_step.
Qed.

Lemma superseded_request_never_settles_witness :
  let w := run [Save itemA; Finalize; Finalize] (init 10) in
  let w' := run [TimerFires 1; SaveSucceeds 0] w in
  (finalizedPromise (vars w) = Some 1 /\ 0 < 1 /\
   1 < length (promises (env w))) /\
  promises (env w') !! 0 = Some Pending /\
  promises (env w') !! 1 = Some Resolved.
Proof.
  intros w w'.
  assert (H1 : finalizedPromise (vars w) = Some 1) by (vm_compute; reflexivity).
  assert (H2 : 0 < 1) by lia.
  assert (H3 : 1 < length (promises (env w))) by (vm_compute; lia).
  split; [by repeat split |]. split; [| vm_compute; reflexivity].
  unfold w'.
  rewrite (superseded_request_never_settles 0 1 [TimerFires 1; SaveSucceeds 0] w H1 H2 H3).
  vm_compute. reflexivity.
Defined.

(** ** After the halt *)

Lemma fmap_batches_alter (f : dispatch -> dispatch) (k : nat) (ds : list dispatch) :
  (forall d, batches (f d) = batches d) ->
  batches <$> alter f k ds = batches <$> ds.
Proof.
  intros Hf. revert k. induction ds as [|d ds IH]; intros [|k]; cbn; try done.
  - by rewrite Hf.
  - by rewrite IH.
Qed.

Ltac batches_kept :=
  rewrite ?fmap_batches_alter by (by intros []); try done.

Lemma idle_halted_step (e : event) (w : world) :
  is_enqueue e = false ->
  idle_halted w ->
  idle_halted (step e w) /\
  batches <$> dispatches (env (step e w)) = batches <$> dispatches (env w).
Proof.
  unfold idle_halted. step_open e w; intros He (-> & -> & ->); try done.
  all: step_exec; try no_request_absurd.
  all: split; [done | batches_kept].
Qed.

Lemma first_failure_idles (k : nat) (E : value) (d : dispatch) (w : world) :
  timer_owned w ->
  _killSwitch (self w) = false ->
  dispatches (env w) !! k = Some d ->
  joined d = Pending ->
  idle_halted (step (SaveFails k E) w) /\
  batches <$> dispatches (env (step (SaveFails k E) w)) =
    batches <$> dispatches (env w).
Proof.
  unfold timer_owned, idle_halted.
  destruct w as [[r0 ks q err kl] [fp ts tm sp] [tms nt ps ds cs]].
  cbn [step]. proj. intros Htm -> Hk Hj.
  assert (Hcleared : match tm with
                     | Some id => tms ∖ {[id]}
                     | None => tms
                     end = ∅).
  { apply elem_of_equiv_empty_L. intros x Hx.
    destruct tm as [id|]; set_unfold in Hx.
    - destruct Hx as [Hx Hne]. by apply Htm in Hx as [= ->].
    - by apply Htm in Hx. }
  step_exec; try congruence.
  all: split; [done | batches_kept].
Qed.

(** X7. The first backend failure stops the pipeline: it empties the
    queue and disarms the tick, and from then on, as long as nothing
    new is enqueued, no call and no callback submits anything to the
    backend or arms a tick again. *)
Theorem failure_stops_dispatch
    (r k : nat) (E : value) (d : dispatch) (evs evs' : list event) :
  let w := run evs (init r) in
  _killSwitch (self w) = false ->
  dispatches (env w) !! k = Some d ->
  joined d = Pending ->
  forallb (fun e => negb (is_enqueue e)) evs' = true ->
  let w' := run evs' (step (SaveFails k E) w) in
  batches <$> dispatches (env w') = batches <$> dispatches (env w) /\
  idle_halted w'.
Proof.
  intros w Hk Hd Hj Hevs w'.
  assert (Hown : timer_owned w).
  { apply (reachable_inv r). apply reachable_run, reach_init. }
  destruct (first_failure_idles k E d w Hown Hk Hd Hj) as [Hidle Hb].
  unfold w'. rewrite <- Hb. clear Hb w'.
  remember (step (SaveFails k E) w) as w0 eqn:Hw0. clear Hw0.
  revert w0 Hidle.
  induction evs' as [|e evs' IH]; intros w0 Hidle; [done |].
  cbn [forallb] in Hevs. apply andb_true_iff in Hevs as [He Hevs].
  apply negb_true_iff in He.
  destruct (idle_halted_step e w0 He Hidle) as [Hidle' Hb].
  rewrite run_cons, <- Hb. by apply IH.
Qed.

Lemma failure_stops_dispatch_witness :
  let w := run [Save itemA; Save itemB; Save itemC; Finalize; TimerFires 1] (init 2) in
  let d := {| batches := [[itemA; itemB]]; joined := Pending;
              handled := Pending; tacked := false |} in
  let w' := run [TimerFires 2; Finalize; SaveFails 0 errorE1]
                (step (SaveFails 0 errorE1) w) in
  (_killSwitch (self w) = false /\ dispatches (env w) !! 0 = Some d) /\
  batches <$> dispatches (env w') = [[[itemA; itemB]]] /\
  idle_halted w'.
Proof.
  intros w d w'.
  assert (Hk : _killSwitch (self w) = false) by (vm_compute; reflexivity).
  assert (Hd : dispatches (env w) !! 0 = Some d) by (vm_compute; reflexivity).
  split; [by split |].
  exact (failure_stops_dispatch 2 0 errorE1 d
           [Save itemA; Save itemB; Save itemC; Finalize; TimerFires 1]
           [TimerFires 2; Finalize; SaveFails 0 errorE1]
           Hk Hd eq_refl eq_refl).
Defined.

(** ** Every item reaches the backend once, in order *)

Lemma fmap_slice_alter (f : dispatch -> dispatch) (k : nat) (ds : list dispatch) :
  (forall d, batches (f d) = batches d) ->
  slice_of <$> alter f k ds = slice_of <$> ds.
Proof.
  intros Hf. revert k. induction ds as [|d ds IH]; intros [|k]; cbn; try done.
  - unfold slice_of. by rewrite Hf.
  - by rewrite IH.
Qed.

Lemma slice_of_new (objects : list value) (p h : pstate) (t : bool) :
  slice_of {| batches := saveInBatches_loop objects []; joined := p;
              handled := h; tacked := t |} = objects.
Proof. apply saveInBatches_loop_concat. Qed.

Lemma sent_snoc (ds : list dispatch) (d : dispatch) :
  concat (slice_of <$> (ds ++ [d])) = concat (slice_of <$> ds) ++ slice_of d.
Proof. by rewrite fmap_app, concat_app; cbn; rewrite app_nil_r. Qed.

Ltac sent_simpl :=
  unfold sent; proj;
  rewrite ?fmap_slice_alter by (by intros []);
  rewrite ?sent_snoc.

Lemma step_conserves (e : event) (w : world) :
  is_failure e = false ->
  sent (step e w) ++ _saveQueue (self (step e w)) =
  sent w ++ _saveQueue (self w) ++ accepted e.
Proof.
  destruct w as [[r0 ks q err kl] [fp ts tm sp] [tms nt ps ds cs]].
  destruct e; try discriminate; intros _; cbn [step accepted]; proj.
  - destruct (is_parse_object object) eqn:Hp; step_exec; sent_simpl.
    all: rewrite ?app_nil_r; try done.
    all: by rewrite Hp in *.
  - destruct (is_array objects) eqn:Ha;
      destruct (truthy (_find objects _)) eqn:Ht; cbn [andb negb].
    all: unfold exec, saveAll; rewrite Ha, Ht; cbn [negb]; sent_simpl.
    all: by rewrite ?app_nil_r.
  - step_exec; sent_simpl; by rewrite ?app_nil_r.
  - step_exec; sent_simpl; rewrite ?app_nil_r; try done.
    all: pose proof (saveInBatches_loop_concat (take r0 q)) as Hc.
    all: clear -Hc; destruct (saveInBatches_loop (take r0 q) []).
    all: unfold slice_of;
      cbn [batches joined handled tacked with_tacked with_handled with_joined];
      by rewrite Hc, <- app_assoc, take_drop.
  - step_exec; sent_simpl; by rewrite ?app_nil_r.
Qed.

Lemma run_conserves (evs : list event) (w : world) :
  forallb (fun e => negb (is_failure e)) evs = true ->
  sent (run evs w) ++ _saveQueue (self (run evs w)) =
  sent w ++ _saveQueue (self w) ++ concat (accepted <$> evs).
Proof.
  revert w. induction evs as [|e evs IH]; intros w Hevs.
  - cbn. by rewrite app_nil_r.
  - cbn [forallb] in Hevs. apply andb_true_iff in Hevs as [He Hevs].
    apply negb_true_iff in He.
    rewrite run_cons, (IH _ Hevs), app_assoc, (step_conserves e w He).
    cbn [fmap list_fmap concat]. by rewrite <- !app_assoc.
Qed.

(** X8. While no dispatch fails, no item is lost, duplicated or
    reordered: the items handed to the backend so far, followed by the
    items still queued, are exactly the items the calls to [save] and
    [saveAll] accepted, in the order of the calls. *)
Theorem items_conserved (r : nat) (evs : list event) :
  forallb (fun e => negb (is_failure e)) evs = true ->
  let w := run evs (init r) in
  sent w ++ _saveQueue (self w) = concat (accepted <$> evs).
Proof. intros Hevs w. unfold w. by rewrite (run_conserves evs _ Hevs). Qed.

Lemma items_conserved_witness :
  let evs := [Save itemA; SaveAll (VArray [itemB; itemC]); Finalize;
              TimerFires 1; Save (VStr "no"); SaveSucceeds 0] in
  let w := run evs (init 2) in
  forallb (fun e => negb (is_failure e)) evs = true /\
  sent w = [itemA; itemB] /\
  _saveQueue (self w) = [itemC] /\
  sent w ++ _saveQueue (self w) = [itemA; itemB; itemC].
Proof.
  intros evs w.
  split; [reflexivity |]. split; [vm_compute; reflexivity |].
  split; [vm_compute; reflexivity |].
  exact (items_conserved 2 evs eq_refl).
Defined.

Lemma step_sublist (e : event) (w : world) :
  sublist (sent (step e w) ++ _saveQueue (self (step e w)))
          (sent w ++ _saveQueue (self w) ++ accepted e).
Proof.
  destruct (is_failure e) eqn:He.
  - destruct w as [[r0 ks q err kl] [fp ts tm sp] [tms nt ps ds cs]].
    destruct e; try discriminate. cbn [accepted step]. rewrite app_nil_r. step_exec; sent_simpl; try done.
    all: rewrite app_nil_r; by apply sublist_inserts_r.
  - by rewrite step_conserves.
Qed.

(** X9. Whatever happens, failures included, the backend is only ever
    handed items that were enqueued, each at most as often as it was
    enqueued, and in the order of enqueueing: what was sent, followed by
    the queue, is a subsequence of the accepted items. *)
Theorem sent_is_subsequence (r : nat) (evs : list event) :
  let w := run evs (init r) in
  sublist (sent w ++ _saveQueue (self w)) (concat (accepted <$> evs)).
Proof.
  intros w. unfold w. clear w.
  induction evs as [|e evs IH] using rev_ind; [done |].
  rewrite run_snoc, fmap_app, concat_app. cbn [fmap list_fmap concat].
  rewrite app_nil_r.
  etrans; [apply step_sublist |].
  rewrite app_assoc. by apply sublist_app.
Qed.


(** ** The rate cap *)

Lemma within_rate_batches (r : nat) (d d' : dispatch) :
  batches d' = batches d -> within_rate r d -> within_rate r d'.
Proof. unfold within_rate, slice_of. by intros ->. Qed.

Lemma within_rate_alter (r : nat) (f : dispatch -> dispatch) (k : nat)
    (ds : list dispatch) :
  (forall d, batches (f d) = batches d) ->
  Forall (within_rate r) ds -> Forall (within_rate r) (alter f k ds).
Proof.
  intros Hf Hds. apply Forall_alter; [done |].
  intros d _. by apply within_rate_batches.
Qed.

Lemma within_rate_new (r : nat) (q : list value) (d : dispatch) :
  batches d = saveInBatches_loop (take r q) [] -> within_rate r d.
Proof.
  intros Hd. unfold within_rate, slice_of. rewrite Hd. split.
  - rewrite saveInBatches_loop_concat, length_take. lia.
  - apply saveInBatches_loop_sizes.
Qed.

Ltac rate_goal :=
  repeat first
    [ assumption
    | apply within_rate_alter; [by intros [] |]
    | apply Forall_app_2; [| apply Forall_singleton] ].

Lemma step_within_rate (e : event) (w : world) :
  Forall (within_rate (_maxRate (self w))) (dispatches (env w)) ->
  Forall (within_rate (_maxRate (self w))) (dispatches (env (step e w))).
Proof.
  step_open e w; intros Hds; step_exec; rate_goal.
  all: apply (within_rate_new r0 q);
    by destruct (saveInBatches_loop (take r0 q) []).
Qed.

(** X10. The rate cap holds for every dispatch ever issued: one tick
    hands the backend at most [maxRate] items, split into requests of
    one to ten items each. *)
Theorem dispatches_within_rate (r : nat) (evs : list event) :
  Forall (fun d => length (slice_of d) <= r /\
                   Forall (fun b => 0 < length b <= 10) (batches d))
         (dispatches (env (run evs (init r)))).
Proof.
  change (Forall (within_rate r) (dispatches (env (run evs (init r))))).
  induction evs as [|e evs IH] using rev_ind; [constructor |].
  rewrite run_snoc.
  rewrite <- (run_maxRate r evs) at 1.
  apply step_within_rate. by rewrite run_maxRate.
Qed.

(** ** The number of requests *)

Lemma ceil10_step (n : nat) :
  0 < n -> S ((n - 10 + 9) / 10) = (n + 9) / 10.
Proof.
  intros Hn. destruct (decide (n <= 10)) as [Hle|Hgt].
  - replace (n - 10 + 9) with 9 by lia.
    rewrite (Nat.div_small 9 10) by lia.
    apply (Nat.div_unique (n + 9) 10 1 (n - 1)); lia.
  - replace (n + 9) with ((n - 10 + 9) + 1 * 10) by lia.
    rewrite Nat.div_add by lia. lia.
Qed.

Lemma saveInBatches_loop_length (objects : list value) :
  length (saveInBatches_loop objects []) = (length objects + 9) / 10.
Proof.
  remember (length objects) as n eqn:Hn. revert objects Hn.
  induction n as [n IH] using lt_wf_ind. intros [|o objects] Hn.
  - simp saveInBatches_loop. by subst n.
  - rewrite saveInBatches_loop_cons. cbn [length].
    rewrite (IH _ ltac:(subst n; apply drop_batch_shorter) _ eq_refl).
    rewrite length_drop, <- Hn. unfold batchSize.
    apply ceil10_step. subst n. cbn [length]. lia.
Qed.

(** X11. A slice of [n] items costs [ceil(n / 10)] backend requests, and
    an empty slice none. *)
Theorem saveInBatches_request_count (objects : list value) (w : world) :
  length <$> (batches <$>
     dispatches (env (exec (saveInBatches objects) w))
       !! length (dispatches (env w))) =
  Some ((length objects + 9) / 10).
Proof.
  unfold exec, saveInBatches. proj. rewrite lookup_last. cbn.
  by rewrite saveInBatches_loop_length.
Qed.

(** ** Enqueueing, continued *)

Lemma set_saveQueue_same (w : world) : set_saveQueue (_saveQueue (self w)) w = w.
Proof. by destruct w as [[] ? ?]. Qed.

Lemma fold_save (items : list value) (w : world) :
  Forall (fun v => is_parse_object v = true) items ->
  fold_left (fun w object => exec (save object) w) items w =
  set_saveQueue (_saveQueue (self w) ++ items) w.
Proof.
  intros Hall. revert w. induction Hall as [|o items Ho _ IH]; intros w.
  - cbn [fold_left]. by rewrite app_nil_r, set_saveQueue_same.
  - cbn [fold_left]. rewrite IH. unfold exec, save. rewrite Ho.
    cbn [negb snd modify]. proj. by rewrite <- app_assoc.
Qed.

(** X12. For an array of Parse objects, [saveAll] does what calling
    [save] on each element in turn does: it succeeds and leaves the
    same state, with the items appended in order.  In particular
    [saveAll([])] changes nothing. *)
Theorem saveAll_is_repeated_save (items : list value) (w : world) :
  Forall (fun v => is_parse_object v = true) items ->
  saveAll (VArray items) w =
    (Normal tt, fold_left (fun w object => exec (save object) w) items w) /\
  saveAll (VArray []) w = (Normal tt, w).
Proof.
  intros Hall. split.
  - by rewrite (saveAll_valid items w Hall), (fold_save items w Hall).
  - rewrite (saveAll_valid [] w); [| constructor].
    by rewrite app_nil_r, set_saveQueue_same.
Qed.

Lemma saveAll_is_repeated_save_witness :
  let w := exec (save itemA) (init 10) in
  Forall (fun v => is_parse_object v = true) [itemB; itemC] /\
  saveAll (VArray [itemB; itemC]) w =
    (Normal tt, exec (save itemC) (exec (save itemB) w)) /\
  _saveQueue (self (exec (saveAll (VArray [itemB; itemC])) w)) =
    [itemA; itemB; itemC].
Proof.
  intros w.
  assert (H : Forall (fun v => is_parse_object v = true) [itemB; itemC])
    by (repeat constructor).
  split; [exact H |]. split; [| vm_compute; reflexivity].
  exact (proj1 (saveAll_is_repeated_save [itemB; itemC] w H)).
Defined.

Lemma find_first_intruder (pre post : list value) (bad : value) :
  Forall (fun v => is_parse_object v = true) pre ->
  is_parse_object bad = false ->
  _find (VArray (pre ++ bad :: post))
        (fun object => negb (is_parse_object object)) = bad.
Proof.
  intros Hpre Hbad. unfold _find. cbn [elements_of].
  induction Hpre as [|v pre Hv _ IH]; cbn [app List.find].
  - by rewrite Hbad.
  - by rewrite Hv.
Qed.

(** X13. An array whose first element that is not a Parse object is
    truthy is refused with the item error, the console names exactly
    that element, and nothing else changes. *)
Theorem saveAll_names_first_intruder
    (pre post : list value) (bad : value) (w : world) :
  Forall (fun v => is_parse_object v = true) pre ->
  is_parse_object bad = false ->
  truthy bad = true ->
  saveAll (VArray (pre ++ bad :: post)) w =
    (Throw (Error "Cannot process item that is not a Parse object"),
     set_console
       (console (env w)
        ++ [LogStr "The following item failed input validation:"; LogVal bad])
       w).
Proof.
  intros Hpre Hbad Ht. unfold saveAll.
  rewrite (find_first_intruder pre post bad Hpre Hbad), Ht.
  unfold bind, console_log, modify, ret, throw. proj.
  unfold set_console. proj. by rewrite <- app_assoc.
Qed.

Lemma saveAll_names_first_intruder_witness :
  let w := exec (save itemC) (init 10) in
  (Forall (fun v => is_parse_object v = true) [itemA] /\
   is_parse_object (VStr "not-an-item") = false /\
   truthy (VStr "not-an-item") = true) /\
  saveAll (VArray [itemA; VStr "not-an-item"; VNull; itemB]) w =
    (Throw (Error "Cannot process item that is not a Parse object"),
     set_console
       [LogStr "The following item failed input validation:";
        LogVal (VStr "not-an-item")] w).
Proof.
  intros w.
  assert (H1 : Forall (fun v => is_parse_object v = true) [itemA])
    by (repeat constructor).
  split; [by repeat split |].
  exact (saveAll_names_first_intruder [itemA] [VNull; itemB]
           (VStr "not-an-item") w H1 eq_refl eq_refl).
Defined.

(** ** A rate of zero *)

Ltac wp_run_empty :=
  repeat (wp_step; rewrite ?saveInBatches_loop_equation_1; wp_simpl).

Lemma pace_stalled (q : list value) (w : world) :
  q <> [] -> stalled q w -> stalled q (pace w).
Proof.
  intros Hq (Hself & Hfp & Hps & (id & Htm & Htms) & Hds).
  destruct w as [s [fp ts tm sp] [tms nt ps ds cs]]. proj. subst.
  destruct q as [|o q]; [done |].
  unfold pace. proj. wp_exec_next. wp_run_empty.
  all: try (exfalso; match goal with H : ?x ∉ {[?x]} |- _ =>
              apply H, elem_of_singleton_2; reflexivity end).
  norm_world. wp_exec_next. wp_run_empty.
  unfold stalled. norm_world. repeat split.
  - exists nt. split; [done |].
    by rewrite difference_diag_L, (left_id_L ∅ (∪)).
  - apply Forall_app_2; [done |]. by apply Forall_singleton.
Qed.

Lemma stalled_start (items : list value) :
  items <> [] ->
  Forall (fun v => is_parse_object v = true) items ->
  stalled items (run [SaveAll (VArray items); Finalize] (init 0)).
Proof.
  intros Hne Hall.
  destruct (drain_start 0 items Hne Hall) as (Hs & Hfp & Hps & Htm & Hlen).
  repeat split; try done.
  apply nil_length_inv in Hlen. rewrite Hlen. constructor.
Qed.

(** X15. With [maxRate = 0] the queue never drains: every tick
    dispatches an empty slice, sends nothing to the backend, leaves the
    queue as it is and arms the next tick, so the completion request
    stays pending after any number of pacing rounds. *)
Theorem zero_rate_never_drains (items : list value) (n : nat) :
  items <> [] ->
  Forall (fun v => is_parse_object v = true) items ->
  let w := Nat.iter n pace (run [SaveAll (VArray items); Finalize] (init 0)) in
  _saveQueue (self w) = items /\
  sent w = [] /\
  (exists id, timer (vars w) = Some id /\ timers (env w) = {[id]}) /\
  outcome w (RetFinalized 0) = Pending.
Proof.
  intros Hne Hall w.
  assert (H : stalled items w).
  { unfold w. clear w. induction n as [|n IH].
    - by apply stalled_start.
    - cbn [Nat.iter]. by apply pace_stalled. }
  destruct H as (Hs & Hfp & Hps & Htm & Hds).
  repeat split; try done.
  - by rewrite Hs.
  - unfold sent. induction Hds as [|d ds [Hb _] _ IH]; [done |].
    cbn [fmap list_fmap concat]. unfold slice_of at 1. by rewrite Hb.
  - unfold outcome. by rewrite Hps.
Qed.

Lemma zero_rate_never_drains_witness :
  let w := Nat.iter 3 pace (run [SaveAll (VArray [itemA; itemB]); Finalize] (init 0)) in
  ([itemA; itemB] <> [] /\
   Forall (fun v => is_parse_object v = true) [itemA; itemB]) /\
  _saveQueue (self w) = [itemA; itemB] /\
  sent w = [] /\
  length (dispatches (env w)) = 3.
Proof.
  intros w.
  assert (H1 : [itemA; itemB] <> []) by discriminate.
  assert (H2 : Forall (fun v => is_parse_object v = true) [itemA; itemB])
    by (repeat constructor).
  split; [by split |].
  destruct (zero_rate_never_drains [itemA; itemB] 3 H1 H2) as (Hq & Hs & _).
  split; [exact Hq |]. split; [exact Hs |]. vm_compute. reflexivity.
Defined.


(** ** The outcome of the completion request *)

Lemma settled_step (j : nat) (p : pstate) (e : event) (w : world) :
  p <> Pending ->
  promises (env w) !! j = Some p ->
  promises (env (step e w)) !! j = Some p.
Proof.
  intros Hp. step_open e w; intros Hj; step_exec; try done.
  all: try (rewrite lookup_app_l; [done | by eapply lookup_lt_Some]).
  all: match goal with
       | H : ?l !! ?n = Some Pending |- <[?n := _]> ?l !! _ = _ =>
           rewrite list_lookup_insert_ne; [done | intros ->; congruence]
       end.
Qed.

Lemma settled_run (j : nat) (p : pstate) (evs : list event) (w : world) :
  p <> Pending ->
  promises (env w) !! j = Some p ->
  promises (env (run evs w)) !! j = Some p.
Proof.
  intros Hp. revert w. induction evs as [|e evs IH]; intros w Hj; [done |].
  rewrite run_cons. apply IH. by apply settled_step.
Qed.

Lemma failure_rejects_request (j k : nat) (E : value) (d : dispatch) (w : world) :
  _killSwitch (self w) = false ->
  finalizedPromise (vars w) = Some j ->
  promises (env w) !! j = Some Pending ->
  dispatches (env w) !! k = Some d ->
  joined d = Pending ->
  promises (env (step (SaveFails k E) w)) !! j = Some (Rejected E).
Proof.
  destruct w as [[r0 ks q err kl] [fp ts tm sp] [tms nt ps ds cs]].
  cbn [step]. proj. intros -> -> Hj Hk Hd.
  step_exec; try congruence.
  all: apply list_lookup_insert_eq; by eapply lookup_lt_Some.
Qed.

(** X16. A backend failure on an instance that is not yet halted
    rejects the pending completion request with the error of that
    failure, and this outcome is final: no later call or callback
    changes it. *)
Theorem failure_is_reported
    (j k : nat) (E : value) (d : dispatch) (evs : list event) (w : world) :
  _killSwitch (self w) = false ->
  finalizedPromise (vars w) = Some j ->
  promises (env w) !! j = Some Pending ->
  dispatches (env w) !! k = Some d ->
  joined d = Pending ->
  outcome (run evs (step (SaveFails k E) w)) (RetFinalized j) = Rejected E.
Proof.
  intros Hks Hfp Hj Hk Hd. unfold outcome.
  by rewrite (settled_run j (Rejected E) evs _ ltac:(done)
                (failure_rejects_request j k E d w Hks Hfp Hj Hk Hd)).
Qed.

Lemma failure_is_reported_witness :
  let w := run [Save itemA; Save itemB; Save itemC; Finalize; TimerFires 1] (init 2) in
  let d := {| batches := [[itemA; itemB]]; joined := Pending;
              handled := Pending; tacked := false |} in
  (_killSwitch (self w) = false /\
   finalizedPromise (vars w) = Some 0 /\
   promises (env w) !! 0 = Some Pending /\
   dispatches (env w) !! 0 = Some d /\
   joined d = Pending) /\
  outcome (run [TimerFires 2; Save itemC; Finalize]
               (step (SaveFails 0 errorE1) w)) (RetFinalized 0) =
    Rejected errorE1.
Proof.
  intros w d.
  assert (H1 : _killSwitch (self w) = false) by (vm_compute; reflexivity).
  assert (H2 : finalizedPromise (vars w) = Some 0) by (vm_compute; reflexivity).
  assert (H3 : promises (env w) !! 0 = Some Pending) by (vm_compute; reflexivity).
  assert (H4 : dispatches (env w) !! 0 = Some d) by (vm_compute; reflexivity).
  assert (H5 : joined d = Pending) by reflexivity.
  split; [by repeat split |].
  exact (failure_is_reported 0 0 errorE1 d [TimerFires 2; Save itemC; Finalize]
           w H1 H2 H3 H4 H5).
Defined.

(** ** Arming the first tick *)

Lemma timer_live_step (e : event) (w : world) :
  killswitch_unset w -> timer_live w -> timer_live (step e w).
Proof.
  unfold killswitch_unset, timer_live.
  step_open e w; intros -> Hlive; step_exec; try done.
  all: intros _ id' [= <-]; set_solver.
Qed.

Lemma timer_live_run (r : nat) (evs : list event) :
  timer_live (run evs (init r)).
Proof.
  induction evs as [|e evs IH] using rev_ind; [by intros _ id |].
  rewrite run_snoc. apply timer_live_step; [| done].
  apply (reachable_inv r). apply reachable_run, reach_init.
Qed.

(** X17. On an instance that is not halted and has items queued,
    [finalize] returns a fresh pending completion request and leaves
    exactly one tick armed, the one [timer] names: one that was armed
    already is kept, otherwise a new one is scheduled. *)
Theorem finalize_arms_one_tick (r : nat) (evs : list event) :
  let w := run evs (init r) in
  _killSwitch (self w) = false ->
  _saveQueue (self w) <> [] ->
  let w' := exec finalize w in
  fst (finalize w) = Normal (RetFinalized (length (promises (env w)))) /\
  outcome w' (RetFinalized (length (promises (env w)))) = Pending /\
  exists id, timer (vars w') = Some id /\ timers (env w') = {[id]}.
Proof.
  intros w Hks Hq.
  pose proof (timer_live_run r evs) as Hlive. fold w in Hlive.
  assert (Hinv : inv w).
  { apply (reachable_inv r). apply reachable_run, reach_init. }
  destruct Hinv as (Hown & Herr & _). specialize (Herr Hks).
  specialize (Hlive Hks). unfold timer_owned in Hown.
  assert (Hwp : wp finalize
            (fun c w' =>
               c = Normal (RetFinalized (length (promises (env w)))) /\
               outcome w' (RetFinalized (length (promises (env w)))) = Pending /\
               exists id, timer (vars w') = Some id /\ timers (env w') = {[id]}) w).
  { clearbody w.
    destruct w as [[r0 ks q err kl] [fp ts tm sp] [tms nt ps ds cs]].
    proj. subst ks err. destruct q as [|o q]; [done |]. wp_run.
    - split; [done |]. split.
      { unfold outcome. proj. by rewrite lookup_last. }
      exists n. split; [done |]. apply set_eq. intros x.
      rewrite elem_of_singleton. split.
      + intros Hx. apply Hown in Hx. congruence.
      + intros ->. by apply Hlive.
    - split; [done |]. split.
      { unfold outcome. proj. by rewrite lookup_last. }
      exists nt. split; [done |].
      assert (tms = ∅) as ->.
      { apply elem_of_equiv_empty_L. intros x Hx. by apply Hown in Hx. }
      by rewrite (left_id_L ∅ (∪)). }
  exact Hwp.
Qed.

Lemma finalize_arms_one_tick_witness :
  let w := run [Save itemA; Save itemB; Finalize; TimerFires 1; SaveSucceeds 0;
                Save itemC] (init 10) in
  let w' := exec finalize w in
  (_killSwitch (self w) = false /\ _saveQueue (self w) <> []) /\
  fst (finalize w) = Normal (RetFinalized 1) /\
  timer (vars w') = Some 2.
Proof.
  intros w w'.
  assert (H1 : _killSwitch (self w) = false) by (vm_compute; reflexivity).
  assert (H2 : _saveQueue (self w) <> []) by (vm_compute; discriminate).
  split; [by split |].
  destruct (finalize_arms_one_tick 10
              [Save itemA; Save itemB; Finalize; TimerFires 1; SaveSucceeds 0;
               Save itemC] H1 H2) as (Hret & _ & _).
  split; [exact Hret |]. vm_compute. reflexivity.
Defined.

(** * Draining under any schedule *)

Lemma slices_S (r : nat) (items : list value) (t : nat) :
  slices r items (S t) =
  slices r items t ++ [saveInBatches_loop (take r (drop (t * r) items)) []].
Proof. unfold slices. by rewrite seq_S, fmap_app. Qed.

Lemma idle_tick (id : nat) (w : world) :
  id ∉ timers (env w) -> step (TimerFires id) w = w.
Proof.
  intros Hid. cbn [step]. unfold exec, timer_fires, bind, get.
  by destruct (decide (id ∈ timers (env w))).
Qed.

Lemma draining_success (r : nat) (items : list value) (t k : nat) (w : world) :
  draining r items t w -> draining r items t (step (SaveSucceeds k) w).
Proof.
  unfold draining.
  destruct w as [[r0 ks q err kl] [fp ts tm sp] [tms nt ps ds cs]].
  cbn [step]. proj. intros (Hself & Hb & Hle & Harmed & Hidle).
  step_exec; rewrite ?fmap_batches_alter by (by intros []); done.
Qed.

Lemma draining_tick (r : nat) (items : list value) (t id : nat) (w : world) :
  0 < r ->
  draining r items t w ->
  id ∈ timers (env w) ->
  draining r items (S t) (step (TimerFires id) w).
Proof.
  unfold draining.
  destruct w as [[r0 ks q err kl] [fp ts tm sp] [tms nt ps ds cs]].
  cbn [step]. proj. intros Hr (Hself & Hb & Hle & Harmed & Hidle) Hid.
  injection Hself as -> -> -> -> ->.
  assert (Hlt : t * r < length items).
  { destruct (decide (t * r < length items)) as [|Hge]; [done |].
    destruct (Hidle ltac:(lia)) as [_ ->]. by apply not_elem_of_empty in Hid. }
  destruct (Harmed Hlt) as (id0 & -> & ->).
  apply elem_of_singleton in Hid as ->. clear Harmed Hidle.
  destruct r as [|r]; [lia |].
  pose proof (drop_drop items (S r) (t * S r)) as Hdd. 
  pose proof (length_drop items (t * S r)) as Hlen.
  rewrite slices_S.
  destruct (drop (t * S r) items) as [|o q] eqn:Hq; [cbn in Hlen; lia |].
  cbn [drop] in Hdd. cbn [length] in Hlen.
  replace (S t * S r) with (t * S r + S r) by lia. rewrite <- Hdd, <- Hb.
  assert (Hrest : length (drop r q) = length items - (t * S r + S r)).
  { by rewrite Hdd, length_drop. }
  clear Hdd Hb Hq.
  step_exec.
  all: try (exfalso; match goal with H : ?x ∉ {[?x]} |- _ =>
              apply H, elem_of_singleton_2; reflexivity end).
  all: match goal with
       | H : (length _ =? 0)%nat = true |- _ => apply Nat.eqb_eq in H
       | H : (length _ =? 0)%nat = false |- _ => apply Nat.eqb_neq in H
       end.
  all: split; [done |]; split; [by rewrite fmap_app |]; split; [lia |].
  all: split; intros Hcmp; try lia.
  - split; [done | apply difference_diag_L].
  - split; [done | apply difference_diag_L].
  - exists nt. split; [done |].
    by rewrite difference_diag_L, (left_id_L ∅ (∪)).
Qed.

Lemma draining_run (r : nat) (items : list value) (evs : list event)
    (t : nat) (w : world) :
  0 < r ->
  backend_succeeds evs = true ->
  draining r items t w ->
  draining r items (t + fired evs w) (run evs w).
Proof.
  intros Hr. revert t w. induction evs as [|e evs IH]; intros t w Hevs Hd.
  - cbn [fired run fold_left]. by rewrite Nat.add_0_r.
  - cbn [backend_succeeds forallb] in Hevs.
    apply andb_true_iff in Hevs as [He Hevs].
    rewrite run_cons. cbn [fired].
    destruct e; try discriminate.
    + destruct (decide (id ∈ timers (env w))) as [Hin|Hout].
      * replace (t + (1 + fired evs (step (TimerFires id) w)))
          with (S t + fired evs (step (TimerFires id) w)) by lia.
        apply IH; [done |]. by apply draining_tick.
      * cbn [Nat.add]. rewrite (idle_tick id w Hout). by apply IH.
    + cbn [Nat.add]. apply IH; [done |]. by apply draining_success.
Qed.

Lemma enqueue_step (e : event) (w : world) :
  is_enqueue e = true ->
  exists cs,
    step e w =
    set_console cs (set_saveQueue (_saveQueue (self w) ++ accepted e) w).
Proof.
  destruct w as [[r0 ks q err kl] [fp ts tm sp] [tms nt ps ds cs]].
  destruct e; try discriminate; intros _; cbn [step accepted].
  - unfold exec, save. destruct (is_parse_object object); cbn [negb].
    + by exists cs.
    + exists cs. by rewrite app_nil_r.
  - unfold exec, saveAll.
    destruct (is_array objects); destruct (truthy (_find objects _));
      cbn [negb andb]; eexists;
      unfold bind, console_log, modify, ret, throw; proj;
      rewrite ?app_nil_r; reflexivity.
Qed.

Lemma enqueue_run (enq : list event) (w : world) :
  forallb is_enqueue enq = true ->
  exists cs,
    run enq w =
    set_console cs
      (set_saveQueue (_saveQueue (self w) ++ concat (accepted <$> enq)) w).
Proof.
  revert w. induction enq as [|e enq IH]; intros w Henq.
  - exists (console (env w)). cbn. rewrite app_nil_r.
    by destruct w as [[] ? []].
  - cbn [forallb] in Henq. apply andb_true_iff in Henq as [He Henq].
    destruct (enqueue_step e w He) as [cs1 Hstep].
    destruct (IH (step e w) Henq) as [cs2 Hrun].
    exists cs2. rewrite run_cons, Hrun, Hstep.
    cbn [fmap list_fmap concat]. proj. by rewrite <- app_assoc.
Qed.

Lemma draining_start (r : nat) (enq : list event) :
  forallb is_enqueue enq = true ->
  concat (accepted <$> enq) <> [] ->
  draining r (concat (accepted <$> enq)) 0 (run (enq ++ [Finalize]) (init r)).
Proof.
  intros Henq Hne. rewrite run_snoc.
  destruct (enqueue_run enq (init r) Henq) as [cs ->].
  cbn [init self _saveQueue app].
  destruct (concat (accepted <$> enq)) as [|o items]; [done |].
  unfold init. norm_world. cbn [step]. wp_exec_next. wp_run.
  unfold draining. norm_world. cbn [Nat.mul drop length].
  split; [done |]. split; [done |]. split; [lia |]. split.
  - intros _. exists 1. split; [done |]. by rewrite (left_id_L ∅ (∪)).
  - lia.
Qed.

(** C9. With [maxRate = r > 0], a fresh instance on which any calls
    to [save] and [saveAll] have queued [n > 0] items before [finalize]
    is called, and then every schedule of ticks and successful saves,
    overlapping or not: each tick that fires removes the first
    [min r (queue length)] items of the queue and dispatches exactly
    those, so that after [t] ticks the queue is [drop (t r) items] and
    the dispatches are the consecutive slices of [r] items; a tick is
    armed as long as items are left; and the queue is empty exactly
    when [ceil(n / r)] ticks have fired, after which none is armed and
    none can fire. *)
Theorem drain_in_ceil_ticks (r : nat) (enq evs : list event) :
  0 < r ->
  forallb is_enqueue enq = true ->
  backend_succeeds evs = true ->
  let items := concat (accepted <$> enq) in
  items <> [] ->
  let k := (length items + r - 1) / r in
  let w0 := run (enq ++ [Finalize]) (init r) in
  let t := fired evs w0 in
  let w := run evs w0 in
  t <= k /\
  _saveQueue (self w) = drop (t * r) items /\
  batches <$> dispatches (env w) =
    (fun j => saveInBatches_loop (take r (drop (j * r) items)) []) <$> seq 0 t /\
  slice_of <$> dispatches (env w) =
    (fun j => take r (drop (j * r) items)) <$> seq 0 t /\
  (t < k ->
   _saveQueue (self w) <> [] /\
   exists id, timer (vars w) = Some id /\ timers (env w) = {[id]}) /\
  (t = k ->
   _saveQueue (self w) = [] /\
   timer (vars w) = None /\ timers (env w) = ∅).
Proof.
  intros Hr Henq Hevs items Hne k w0 t w.
  assert (Hn : 0 < length items) by (destruct items; [done | cbn; lia]).
  destruct (ceil_bounds (length items) r Hr Hn) as (Hk & Hlo & Hhi).
  fold k in Hk, Hlo, Hhi.
  pose proof (draining_run r items evs 0 w0 Hr Hevs
                (draining_start r enq Henq Hne)) as Hd.
  cbn [Nat.add] in Hd. fold t w in Hd.
  destruct Hd as (Hs & Hb & Hle & Harmed & Hidle).
  assert (Hq : _saveQueue (self w) = drop (t * r) items) by by rewrite Hs.
  assert (Htk : t <= k) by nia.
  split; [done |]. split; [done |]. split; [done |]. split.
  { change slice_of with (@concat value ∘ batches).
    rewrite list_fmap_compose, Hb. unfold slices.
    rewrite <- list_fmap_compose. apply list_fmap_ext.
    intros i j _. cbn. apply saveInBatches_loop_concat. }
  split.
  - intros Hlt. assert (Hlt' : t * r < length items) by nia.
    split; [| by apply Harmed].
    rewrite Hq. intros Hnil. apply (f_equal length) in Hnil.
    rewrite length_drop in Hnil. cbn in Hnil. lia.
  - intros Heq. assert (Hge : length items <= t * r) by nia.
    split; [| by apply Hidle].
    rewrite Hq. apply nil_length_inv. rewrite length_drop. lia.
Qed.

Lemma drain_in_ceil_ticks_witness :
  let enq := [Save itemA; SaveAll (VArray [itemB; itemC]); Save (VStr "no");
              SaveAll (VArray [VParseObject 4; VParseObject 5])] in
  let evs := [TimerFires 1; TimerFires 2; SaveSucceeds 1; TimerFires 7;
              TimerFires 3; SaveSucceeds 0; SaveSucceeds 2] in
  let w := run evs (run (enq ++ [Finalize]) (init 2)) in
  (0 < 2 /\ forallb is_enqueue enq = true /\
   backend_succeeds evs = true /\ concat (accepted <$> enq) <> []) /\
  _saveQueue (self w) = [] /\
  slice_of <$> dispatches (env w) =
    [[itemA; itemB]; [itemC; VParseObject 4]; [VParseObject 5]] /\
  timers (env w) = ∅.
Proof.
  intros enq evs w.
  assert (H1 : 0 < 2) by lia.
  assert (H2 : forallb is_enqueue enq = true) by reflexivity.
  assert (H3 : backend_succeeds evs = true) by reflexivity.
  assert (H4 : concat (accepted <$> enq) <> []) by discriminate.
  split; [by repeat split |].
  destruct (drain_in_ceil_ticks 2 enq evs H1 H2 H3 H4)
    as (_ & _ & _ & Hslices & _ & Hdone).
  assert (Ht : fired evs (run (enq ++ [Finalize]) (init 2)) = 3)
    by (vm_compute; reflexivity).
  rewrite Ht in Hslices, Hdone.
  destruct (Hdone eq_refl) as (Hq & _ & Htm).
  split; [exact Hq |]. split; [exact Hslices | exact Htm].
Defined.
